(** * A shallow embedding of symbolica's expression graphs

    Source files: [src/constants.rs] ([Value]), [src/symbols.rs]
    ([OperationKind], [Operation], [OpArgument], rendering, hashing,
    [variables]), [src/operation_properties.rs] (arity, associativity,
    evaluation and the [Ord] instance of [OperationKind]),
    [src/operations.rs] (the public builders) and [src/equivalencies.rs]
    (hashing entry point and equivalence graphs). *)

From Stdlib Require Import ZArith NArith List Bool Ascii String Lia.
From Stdlib Require Import Numbers.DecimalString Init.Byte.
Import ListNotations.
Open Scope string_scope.

(* ------------------------------------------------------------------ *)
(** ** [constants.rs]: leaf values *)

(** [Value::Rational(u64, NonZeroU64)]: the numerator is a [u64] ([N]),
    the denominator a non-zero [u64] ([positive]).  [Variable] (here [Variable'], as [Variable] is a keyword) holds the
    [&'static str] name. *)
Inductive Value : Type :=
| Rational (num : N) (den : positive)
| Pi
| E
| I
| Inf
| Variable' (name : string).

(** [#[derive(PartialEq)]] on [Value]: structural equality. *)
Definition Value_eq_dec (v w : Value) : {v = w} + {v <> w}.
Proof. decide equality; first [apply string_dec | apply Pos.eq_dec | apply N.eq_dec]. Defined.

Definition Value_eqb (v w : Value) : bool :=
  if Value_eq_dec v w then true else false.

(* ------------------------------------------------------------------ *)
(** ** [symbols.rs] / [operation_properties.rs]: operation kinds *)

Inductive OperationKind : Type :=
| Addition | Subtraction | Multiplication | Division | Negation
| Pow | Exp | Sin | Cos | Tan | Ln.

Inductive Associativity : Type := Left | Right | Neither.

Definition Associativity_eqb (a b : Associativity) : bool :=
  match a, b with
  | Left, Left | Right, Right | Neither, Neither => true
  | _, _ => false
  end.

Definition is_infix (k : OperationKind) : bool :=
  match k with
  | Addition | Subtraction | Multiplication | Division | Pow => true
  | _ => false
  end.

Definition argcount (k : OperationKind) : nat :=
  match k with
  | Negation => 1
  | Addition | Subtraction | Multiplication | Division | Pow => 2
  | Exp | Sin | Cos | Tan | Ln => 1
  end.

Definition is_prefix (k : OperationKind) : bool :=
  match k with
  | Negation => true
  | _ => false
  end.

Definition associativity (k : OperationKind) : Associativity :=
  match k with
  | Pow => Right
  | Addition | Subtraction | Multiplication | Division => Left
  | Negation | Exp | Sin | Cos | Tan | Ln => Neither
  end.

(** [impl Ord for OperationKind]: [std::cmp::Ordering] is [comparison]
    ([Less] = [Lt], [Equal] = [Eq], [Greater] = [Gt]). *)
Definition cmp (self other : OperationKind) : comparison :=
  match self with
  | Addition | Subtraction =>
      match other with
      | Addition | Subtraction => Eq
      | _ => Gt
      end
  | Multiplication | Division =>
      match other with
      | Addition | Subtraction => Lt
      | Multiplication | Division => Eq
      | _ => Gt
      end
  | _ =>
      match other with
      | Addition | Subtraction | Multiplication | Division => Lt
      | _ => Eq
      end
  end.

(** The precedence classes of the specification (section 4.2):
    additive lowest, multiplicative middle, everything else highest. *)
Definition precedence_class (k : OperationKind) : nat :=
  match k with
  | Addition | Subtraction => 0
  | Multiplication | Division => 1
  | Negation | Pow | Exp | Sin | Cos | Tan | Ln => 2
  end.

(** [impl Display for OperationKind] *)
Definition show_kind (k : OperationKind) : string :=
  match k with
  | Addition => "+"
  | Subtraction => "-"
  | Multiplication => "*"
  | Division => "/"
  | Negation => "-"
  | Pow => "^"
  | Exp => "exp"
  | Sin => "sin"
  | Cos => "cos"
  | Tan => "tan"
  | Ln => "ln"
  end.

(* ------------------------------------------------------------------ *)
(** ** [OperationKind::eval] and [eval_fn]

    [f64] arithmetic is kept abstract: only whether the call returns or
    panics is modelled.  None of the float operations used ([+], [-], [*],
    [/], unary [-], [powf], [exp], [sin], [cos], [tan], [ln]) panics in
    Rust; a panic can only come from the [assert_eq!] or from indexing the
    slice out of range. *)
Section Eval.
Variable f64 : Type.
Variables fadd fsub fmul fdiv powf : f64 -> f64 -> f64.
Variables fneg fexp fsin fcos ftan fln : f64 -> f64.

(** [a[i]] on a slice: [None] is the index-out-of-bounds panic. *)
Definition index (a : list f64) (i : nat) : option f64 := nth_error a i.

Definition binary (f : f64 -> f64 -> f64) (a : list f64) : option f64 :=
  match index a 0 with
  | None => None
  | Some x =>
      match index a 1 with
      | None => None
      | Some y => Some (f x y)
      end
  end.

Definition unary (f : f64 -> f64) (a : list f64) : option f64 :=
  match index a 0 with
  | None => None
  | Some x => Some (f x)
  end.

Definition eval_fn (k : OperationKind) : list f64 -> option f64 :=
  match k with
  | Addition => binary fadd
  | Subtraction => binary fsub
  | Multiplication => binary fmul
  | Division => binary fdiv
  | Negation => unary fneg
  | Pow => binary powf
  | Exp => unary fexp
  | Sin => unary fsin
  | Cos => unary fcos
  | Tan => unary ftan
  | Ln => unary fln
  end.

(** [eval]: [assert_eq!(self.argcount(), a.len(), ..)] then [eval_fn];
    [None] is a panic. *)
Definition eval (k : OperationKind) (a : list f64) : option f64 :=
  if Nat.eqb (argcount k) (List.length a) then eval_fn k a else None.
End Eval.

(* ------------------------------------------------------------------ *)
(** ** [symbols.rs]: expression graphs

    [OpArgument { value: OpArgumentKind, hash: OnceCell<u64> }] with
    [OpArgumentKind = Op(Arc<Operation>) | Leaf(Arc<Value>)] and
    [Operation { op, arguments }].  The two layers are flattened into one
    inductive: [Op c k args] is an [OpArgument] whose hash cell is [c]
    and whose value is [Op(Arc::new(Operation { op: k, arguments: args }))];
    [Leaf c v] one whose value is [Leaf(Arc::new(v))].  The [Arc]s are
    immutable, so sharing them is not observable except through the hash
    cells, which are only ever filled with the value [hash] computes (see
    [cache_ok] below). *)
Set Warnings "-register-all".
Inductive OpArgument : Type :=
| Op (hash : option Z) (op : OperationKind) (arguments : list OpArgument)
| Leaf (hash : option Z) (value : Value).

(** Induction through the argument lists. *)
Section OpArgument_ind_nested.
Variable P : OpArgument -> Prop.
Hypothesis HOp : forall c k args, Forall P args -> P (Op c k args).
Hypothesis HLeaf : forall c v, P (Leaf c v).

Fixpoint OpArgument_ind' (a : OpArgument) : P a :=
  match a with
  | Op c k args =>
      HOp c k args
        ((fix go (l : list OpArgument) : Forall P l :=
            match l with
            | [] => Forall_nil P
            | x :: tl => Forall_cons x (OpArgument_ind' x) (go tl)
            end) args)
  | Leaf c v => HLeaf c v
  end.
End OpArgument_ind_nested.

(* ------------------------------------------------------------------ *)
(** ** Rendering: [Display for Value], [Display for OpArgument] and
    [Display for Operation].  [None] is a panic. *)

(** [u64] in decimal, as [{}] prints it. *)
Definition show_N (n : N) : string := NilEmpty.string_of_uint (N.to_uint n).

(** ['\u{3c0}'] (pi) and ['\u{221e}'] (infinity), UTF-8 encoded. *)
Definition pi_str : string :=
  String (ascii_of_nat 207) (String (ascii_of_nat 128) EmptyString).
Definition inf_str : string :=
  String (ascii_of_nat 226) (String (ascii_of_nat 136)
    (String (ascii_of_nat 158) EmptyString)).

Definition show_value (v : Value) : string :=
  match v with
  | Rational num denom => show_N num ++ "/" ++ show_N (Npos denom)
  | Pi => pi_str
  | E => "e"
  | I => "i"
  | Inf => inf_str
  | Variable' v => v
  end.

Definition paren (s : string) : string := "(" ++ s ++ ")".

(** The [lhs_prec] / [rhs_prec] / [precedence] computation:
    [Op(op) => self.op.cmp(&op.op)], [_ => Ordering::Greater]. *)
Definition child_prec (k : OperationKind) (child : OpArgument) : comparison :=
  match child with
  | Op _ k' _ => cmp k k'
  | Leaf _ _ => Gt
  end.

Fixpoint render (a : OpArgument) : option string :=
  match a with
  | Leaf _ v => Some (show_value v)
  | Op _ k args =>
      if negb (Nat.eqb (List.length args) (argcount k)) then None
      else if is_prefix k then
        match args with
        | a0 :: _ =>
            match render a0 with
            | None => None
            | Some s0 =>
                match child_prec k a0 with
                | Lt | Eq => Some (show_kind k ++ paren s0)
                | Gt => Some (show_kind k ++ s0)
                end
            end
        | [] => None
        end
      else if is_infix k then
        if negb (Nat.eqb (argcount k) 2) then None
        else
          match args with
          | a0 :: a1 :: _ =>
              match render a0 with
              | None => None
              | Some s0 =>
                  let lhs :=
                    match child_prec k a0 with
                    | Eq => if Associativity_eqb (associativity k) Left
                            then s0 else paren s0
                    | Gt => s0
                    | Lt => paren s0
                    end in
                  match render a1 with
                  | None => None
                  | Some s1 =>
                      let rhs :=
                        match child_prec k a1 with
                        | Eq => if Associativity_eqb (associativity k) Right
                                then s1 else paren s1
                        | Gt => s1
                        | Lt => paren s1
                        end in
                      Some (lhs ++ show_kind k ++ rhs)
                  end
              end
          | _ => None
          end
      else
        let n := List.length args in
        match (fix go (l : list OpArgument) (i : nat) : option string :=
                 match l with
                 | [] => Some ""
                 | x :: tl =>
                     match render x with
                     | None => None
                     | Some s =>
                         let sep := if Nat.ltb i (n - 1) then "," else "" in
                         match go tl (S i) with
                         | None => None
                         | Some r => Some (s ++ sep ++ r)
                         end
                     end
                 end) args 0 with
        | None => None
        | Some body => Some (show_kind k ++ paren body)
        end
  end.

(* ------------------------------------------------------------------ *)
(** ** [operations.rs]: the public builders *)

(** [construct_oparg]: a new [OpArgument] with an empty hash cell sharing
    the same [Arc]. *)
Definition construct_oparg (a : OpArgument) : OpArgument :=
  match a with
  | Op _ k args => Op None k args
  | Leaf _ v => Leaf None v
  end.

(** Whether an operand is passed by value ([OpArgument]) or by reference
    ([&OpArgument], copied through [construct_oparg]). *)
Inductive Passing : Type := ByValue | ByRef.

Definition pass (p : Passing) (a : OpArgument) : OpArgument :=
  match p with
  | ByValue => a
  | ByRef => construct_oparg a
  end.

(** [Op(Operation { op, arguments }.into()).into()]: a fresh node with an
    empty hash cell. *)
Definition binop (k : OperationKind) (p q : Passing) (lhs rhs : OpArgument)
  : OpArgument := Op None k [pass p lhs; pass q rhs].

(** The four [impl Add] (resp. [Sub], [Mul], [Div]) for the combinations
    of owned and borrowed operands. *)
Definition add := binop Addition.
Definition sub := binop Subtraction.
Definition mul := binop Multiplication.
Definition div := binop Division.

(** [impl Neg for OpArgument] and [impl Neg for &OpArgument]. *)
Definition neg (p : Passing) (a : OpArgument) : OpArgument :=
  Op None Negation [pass p a].

Definition pow (self rhs : OpArgument) : OpArgument :=
  Op None Pow [construct_oparg self; construct_oparg rhs].
Definition ln (self : OpArgument) : OpArgument := Op None Ln [construct_oparg self].
Definition exp (self : OpArgument) : OpArgument := Op None Exp [construct_oparg self].
Definition sin (self : OpArgument) : OpArgument := Op None Sin [construct_oparg self].
Definition cos (self : OpArgument) : OpArgument := Op None Cos [construct_oparg self].

(** [symbols::variable] and [impl From<Value> for OpArgument]. *)
Definition variable (name : string) : OpArgument := Leaf None (Variable' name).
Definition from_value (v : Value) : OpArgument := Leaf None v.

(** One application of a public builder; unary builders ignore their
    second operand. *)
Inductive Builder : Type :=
| BAdd (p q : Passing) | BSub (p q : Passing)
| BMul (p q : Passing) | BDiv (p q : Passing)
| BNeg (p : Passing) | BPow | BLn | BExp | BSin | BCos.

Definition apply_builder (b : Builder) (x y : OpArgument) : OpArgument :=
  match b with
  | BAdd p q => add p q x y
  | BSub p q => sub p q x y
  | BMul p q => mul p q x y
  | BDiv p q => div p q x y
  | BNeg p => neg p x
  | BPow => pow x y
  | BLn => ln x
  | BExp => exp x
  | BSin => sin x
  | BCos => cos x
  end.

(** Whether a builder uses its second operand. *)
Definition builder_is_binary (b : Builder) : bool :=
  match b with
  | BAdd _ _ | BSub _ _ | BMul _ _ | BDiv _ _ | BPow => true
  | BNeg _ | BLn | BExp | BSin | BCos => false
  end.

(** Expressions built solely through the public builders. *)
Inductive Built : OpArgument -> Prop :=
| B_variable name : Built (variable name)
| B_value v : Built (from_value v)
| B_apply b x y : Built x -> Built y -> Built (apply_builder b x y).

(** Every [Operation] node has exactly [argcount()] children. *)
Fixpoint arity_ok (a : OpArgument) : Prop :=
  match a with
  | Op _ k args =>
      List.length args = argcount k /\
      (fix all (l : list OpArgument) : Prop :=
         match l with
         | [] => True
         | x :: tl => arity_ok x /\ all tl
         end) args
  | Leaf _ _ => True
  end.

(* ------------------------------------------------------------------ *)
(** ** [fill_variables] / [variables]

    [HashSet<&Value>]: references hash and compare through [Value]'s own
    [Hash] and derived [PartialEq], so the set holds values up to
    structural equality.  It is a duplicate-free list; [insert] leaves the
    set unchanged when an equal element is present. *)
Definition set_insert {A} (eqb : A -> A -> bool) (x : A) (s : list A) : list A :=
  if existsb (eqb x) s then s else x :: s.

Fixpoint fill_variables (a : OpArgument) (vars : list Value) : list Value :=
  match a with
  | Op _ _ args => fold_left (fun vars oparg => fill_variables oparg vars) args vars
  | Leaf _ value => set_insert Value_eqb value vars
  end.

Definition variables (a : OpArgument) : list Value := fill_variables a [].

(** The leaf values referenced anywhere in an expression (the spec's
    notion, for comparison with [variables]). *)
Inductive leaf_of (v : Value) : OpArgument -> Prop :=
| leaf_here c : leaf_of v (Leaf c v)
| leaf_below c k args a : In a args -> leaf_of v a -> leaf_of v (Op c k args).

Definition is_variable (v : Value) : bool :=
  match v with
  | Variable' _ => true
  | _ => false
  end.

(* ------------------------------------------------------------------ *)
(** ** Hashing: [Hash for Value], [Hash for Operation], [OpArgument::hash]
    and [equivalencies::hash_oparg]

    A [Hasher]'s state is the sequence of writes made to it; [finish] is
    the digest [AHasher] computes from them.  [AHasher::default()] uses
    fixed keys, so [finish] is one fixed function. *)
Inductive HashWrite : Type :=
| WriteU32 (n : Z)
| WriteU64 (n : Z)
| WriteBytes (bs : list byte).

Definition write_u32 (n : Z) (state : list HashWrite) := (state ++ [WriteU32 n])%list.
Definition write_u64 (n : Z) (state : list HashWrite) := (state ++ [WriteU64 n])%list.
Definition write (bs : list byte) (state : list HashWrite) := (state ++ [WriteBytes bs])%list.

Definition Value_hash (v : Value) (state : list HashWrite) : list HashWrite :=
  let disc_code :=
    match v with
    | Rational _ _ => 0 | Pi => 1 | E => 2 | I => 3 | Inf => 4 | Variable' _ => 5
    end%Z in
  let state := write_u32 disc_code state in
  match v with
  | Rational num den => write_u64 (Z.pos den) (write_u64 (Z.of_N num) state)
  | Variable' str => write (list_byte_of_string str) state
  | _ => state
  end.

Definition opcode (k : OperationKind) : Z :=
  match k with
  | Addition => 1 | Subtraction => 2 | Multiplication => 3 | Division => 4
  | Negation => 5 | Pow => 6 | Exp => 7 | Sin => 8 | Cos => 9 | Tan => 10
  | Ln => 11
  end.

(** [OnceCell::get_or_init] *)
Definition get_or_init (cell : option Z) (init : unit -> Z) : Z :=
  match cell with
  | Some h => h
  | None => init tt
  end.

Section Hashing.
Variable finish : list HashWrite -> Z.

(** [OpArgument::hash]: the cached value, or [hash_oparg] run on a fresh
    hasher and finished.  For an [Op] node this is [Operation::hash]:
    opcode, argument count, then each argument's own [hash()]. *)
Fixpoint oparg_hash (a : OpArgument) : Z :=
  match a with
  | Op cell k args =>
      get_or_init cell (fun _ =>
        finish
          (fold_left (fun state e => write_u64 (oparg_hash e) state) args
             (write_u64 (Z.of_nat (List.length args)) (write_u32 (opcode k) [])))) 
  | Leaf cell v => get_or_init cell (fun _ => finish (Value_hash v []))
  end.

(** [impl Hash for Operation] *)
Definition Operation_hash (k : OperationKind) (args : list OpArgument)
  (state : list HashWrite) : list HashWrite :=
  let state := write_u32 (opcode k) state in
  let state := write_u64 (Z.of_nat (List.length args)) state in
  fold_left (fun state e => write_u64 (oparg_hash e) state) args state.

(** [equivalencies::hash_oparg] (through [hash_op] / [hash_leaf]). *)
Definition hash_oparg (a : OpArgument) (state : list HashWrite) : list HashWrite :=
  match a with
  | Op _ k args => Operation_hash k args state
  | Leaf _ v => Value_hash v state
  end.

Definition hash_cell (a : OpArgument) : option Z :=
  match a with
  | Op c _ _ | Leaf c _ => c
  end.

Lemma oparg_hash_unfold (a : OpArgument) :
  oparg_hash a = get_or_init (hash_cell a) (fun _ => finish (hash_oparg a [])).
Proof. destruct a; reflexivity. Qed.

(** [impl PartialEq for OpArgument]: equal hashes. *)
Definition oparg_eq (a b : OpArgument) : bool := Z.eqb (oparg_hash a) (oparg_hash b).

(** Calling [hash()]: fills the node's cell when it is empty; computing
    it calls [hash()] on every argument, which fills theirs. *)
Fixpoint fill_hash (a : OpArgument) : OpArgument :=
  match a with
  | Op (Some h) k args => Op (Some h) k args
  | Op None k args => Op (Some (oparg_hash (Op None k args))) k (map fill_hash args)
  | Leaf (Some h) v => Leaf (Some h) v
  | Leaf None v => Leaf (Some (oparg_hash (Leaf None v))) v
  end.

(** Every filled cell holds what [hash()] would compute. *)
Fixpoint cache_ok (a : OpArgument) : Prop :=
  match a with
  | Op c k args =>
      (forall h, c = Some h -> h = finish (Operation_hash k args [])) /\
      (fix all (l : list OpArgument) : Prop :=
         match l with
         | [] => True
         | x :: tl => cache_ok x /\ all tl
         end) args
  | Leaf c v => forall h, c = Some h -> h = finish (Value_hash v [])
  end.

(** States reachable through the builders and [hash()] calls. *)
Inductive Reachable : OpArgument -> Prop :=
| R_variable name : Reachable (variable name)
| R_value v : Reachable (from_value v)
| R_apply b x y : Reachable x -> Reachable y -> Reachable (apply_builder b x y)
| R_hashed x : Reachable x -> Reachable (fill_hash x).


(** [EquivalenceClass { graphset: HashSet<&OpArgument> }] and
    [EquivalenceGraph { backing_graph, eclasses }]; [&OpArgument] hashes
    and compares through [OpArgument]'s [Hash] and [PartialEq]. *)
Record EquivalenceClass : Type := { graphset : list OpArgument }.
Record EquivalenceGraph : Type :=
  { backing_graph : OpArgument; eclasses : list EquivalenceClass }.

Definition EquivalenceClass_from (oparg : OpArgument) : EquivalenceClass :=
  let graphset := set_insert oparg_eq oparg [] in
  {| graphset := graphset |}.

Definition EquivalenceGraph_from (g : OpArgument) : EquivalenceGraph :=
  {| backing_graph := g; eclasses := [EquivalenceClass_from g] |}.
End Hashing.

(** Erasing the hash cells: the shape and leaf values of an expression. *)
Fixpoint erase (a : OpArgument) : OpArgument :=
  match a with
  | Op _ k args => Op None k (map erase args)
  | Leaf _ v => Leaf None v
  end.

(** The parenthesisation rule of the specification for an operand of an
    infix operator [k] on the side whose associativity is [side]: a leaf
    is printed bare; an operator operand is printed bare when its
    precedence class is strictly above [k]'s, or equal to it with [k]
    associating towards that side. *)
Definition printed_bare (k : OperationKind) (child : OpArgument)
  (side : Associativity) : bool :=
  match child with
  | Leaf _ _ => true
  | Op _ k' _ =>
      Nat.ltb (precedence_class k) (precedence_class k') ||
      (Nat.eqb (precedence_class k) (precedence_class k') &&
       Associativity_eqb (associativity k) side)
  end.

Definition wrap (bare : bool) (s : string) : string :=
  if bare then s else paren s.

(* ================================================================== *)
(** * Claims *)

(** C1 (as stated): [cmp] returns [Less] exactly when the left kind's
    precedence class is below the right kind's; it fails already at
    [Addition.cmp(Multiplication)], which is [Greater]. *)
Lemma cmp_spec_order_counterexample :
  cmp Addition Multiplication = Gt /\
  cmp Addition Multiplication <> Nat.compare (precedence_class Addition)
                                             (precedence_class Multiplication).
Proof. split; [reflexivity | discriminate]. Qed.

(** C1 (amended): [cmp] is the reverse of the precedence-class order:
    [a.cmp(b)] is [Greater] exactly when [a]'s class is below [b]'s,
    [Equal] exactly when both are in the same class and [Less] exactly
    when [a]'s class is above [b]'s. *)
Theorem cmp_reverses_precedence (a b : OperationKind) :
  cmp a b = Nat.compare (precedence_class b) (precedence_class a).
Proof. destruct a, b; reflexivity. Qed.

(** C7: the renderer's output on three concretely built expressions:
    [x + y] is ["x+y"], [(x + y) * z] is ["(x+y)*z"] and
    [x.pow(&y).pow(&z)] is ["(x^y)^z"]. *)
Theorem render_examples :
  render (add ByValue ByValue (variable "x") (variable "y")) = Some "x+y" /\
  render (mul ByValue ByValue
            (add ByValue ByValue (variable "x") (variable "y"))
            (variable "z")) = Some "(x+y)*z" /\
  render (pow (pow (variable "x") (variable "y")) (variable "z"))
    = Some "(x^y)^z".
Proof. split; [|split]; vm_compute; reflexivity. Qed.

(** The renderer's operand choice agrees with [printed_bare]. *)
Lemma operand_choice (k : OperationKind) (child : OpArgument)
  (side : Associativity) (s : string) :
  match child_prec k child with
  | Eq => if Associativity_eqb (associativity k) side then s else paren s
  | Gt => s
  | Lt => paren s
  end = wrap (printed_bare k child side) s.
Proof.
  destruct child as [c k' args | c v]; [|reflexivity].
  destruct k, k', side; reflexivity.
Qed.

(** One step of [render] on an infix node with two operands. *)
Lemma render_infix_unfold (c : option Z) (k : OperationKind)
  (l r : OpArgument) :
  is_infix k = true ->
  render (Op c k [l; r]) =
  match render l with
  | None => None
  | Some s0 =>
      match render r with
      | None => None
      | Some s1 =>
          Some ((match child_prec k l with
                 | Eq => if Associativity_eqb (associativity k) Left
                         then s0 else paren s0
                 | Gt => s0
                 | Lt => paren s0
                 end) ++ show_kind k ++
                (match child_prec k r with
                 | Eq => if Associativity_eqb (associativity k) Right
                         then s1 else paren s1
                 | Gt => s1
                 | Lt => paren s1
                 end))
      end
  end.
Proof. intros H; destruct k; try discriminate H; reflexivity. Qed.

(** C2: rendering an infix operation [k] with operands [l] and [r]
    prints [l], the operator and [r], each operand wrapped in parentheses
    exactly when [printed_bare] (the precedence-class rule: bare when of
    strictly higher class, or of equal class on the side [k] associates
    to; leaves always bare) says so; a panic in an operand propagates. *)
Theorem render_infix_parens (c : option Z) (k : OperationKind)
  (l r : OpArgument) (Hinfix : is_infix k = true) :
  render (Op c k [l; r]) =
  match render l, render r with
  | Some sl, Some sr =>
      Some (wrap (printed_bare k l Left) sl ++ show_kind k ++
            wrap (printed_bare k r Right) sr)
  | _, _ => None
  end.
Proof.
  rewrite (render_infix_unfold c k l r Hinfix).
  destruct (render l) as [sl|]; [|reflexivity].
  destruct (render r) as [sr|]; [|reflexivity].
  rewrite !operand_choice. reflexivity.
Qed.

Lemma render_infix_parens_witness :
  is_infix Pow = true /\
  render (Op None Pow [pow (variable "x") (variable "y"); variable "z"]) =
  Some "(x^y)^z".
Proof.
  split; [reflexivity|].
  rewrite (render_infix_parens None Pow _ _ eq_refl).
  vm_compute. reflexivity.
Defined.

Section EvalClaims.
Context {f64 : Type}.
Context (fadd fsub fmul fdiv powf : f64 -> f64 -> f64).
Context (fneg fexp fsin fcos ftan fln : f64 -> f64).

Let eval' := eval f64 fadd fsub fmul fdiv powf fneg fexp fsin fcos ftan fln.

(** C5: [k.eval(a)] returns a value exactly when [a.len()] equals
    [k.argcount()], and panics otherwise. *)
Theorem eval_succeeds_iff_arity (k : OperationKind) (a : list f64) :
  (exists r, eval' k a = Some r) <-> List.length a = argcount k.
Proof.
  unfold eval', eval.
  destruct (Nat.eqb_spec (argcount k) (List.length a)) as [H|H].
  - split; [intros _; symmetry; exact H|intros _].
    destruct k, a as [|x [|y a]]; simpl in H; try discriminate H;
      simpl; eexists; reflexivity.
  - split; [intros [r Hr]; discriminate Hr|intros H'; congruence].
Qed.
End EvalClaims.

Lemma eval_succeeds_iff_arity_witness :
  (exists r, eval Z Z.add Z.sub Z.mul Z.div Z.pow Z.opp id id id id id
               Addition [1; 2]%Z = Some r) /\
  ~ (exists r, eval Z Z.add Z.sub Z.mul Z.div Z.pow Z.opp id id id id id
                 Sin [1; 2]%Z = Some r).
Proof.
  split.
  - apply (proj2 (eval_succeeds_iff_arity Z.add Z.sub Z.mul Z.div Z.pow
                    Z.opp id id id id id Addition [1; 2]%Z)).
    reflexivity.
  - intros Hex.
    apply (proj1 (eval_succeeds_iff_arity Z.add Z.sub Z.mul Z.div Z.pow
                    Z.opp id id id id id Sin [1; 2]%Z)) in Hex.
    simpl in Hex. discriminate Hex.
Defined.

Lemma arity_ok_Op (c : option Z) (k : OperationKind) (args : list OpArgument) :
  arity_ok (Op c k args) <->
  List.length args = argcount k /\ Forall arity_ok args.
Proof.
  simpl. split; intros [Hlen Hall]; split; try exact Hlen; clear Hlen.
  - induction args as [|a args IH]; constructor; destruct Hall; auto.
  - induction args as [|a args IH]; [exact Logic.I|].
    inversion Hall; subst; split; [assumption | apply IH; assumption].
Qed.

Lemma arity_ok_construct_oparg (a : OpArgument) :
  arity_ok a -> arity_ok (construct_oparg a).
Proof. destruct a; simpl; auto. Qed.

Lemma arity_ok_pass (p : Passing) (a : OpArgument) :
  arity_ok a -> arity_ok (pass p a).
Proof. destruct p; simpl; auto using arity_ok_construct_oparg. Qed.

Lemma Built_arity_ok (e : OpArgument) : Built e -> arity_ok e.
Proof.
  induction 1 as [name|v|b x y Hx IHx Hy IHy]; simpl; auto.
  destruct b; simpl;
    repeat split; auto using arity_ok_pass, arity_ok_construct_oparg.
Qed.

(** A well-aritied expression renders without panicking. *)
Lemma arity_ok_render (e : OpArgument) :
  arity_ok e -> exists s, render e = Some s.
Proof.
  induction e as [c k args IH | c v] using OpArgument_ind'.
  - intros Hok. apply arity_ok_Op in Hok as [Hlen Hall].
    destruct k, args as [|a0 [|a1 [|a2 args]]]; simpl in Hlen;
      try discriminate Hlen;
      inversion IH as [|? ? IH0 IHt]; subst;
      inversion Hall as [|? ? Hall0 Hallt]; subst;
      destruct (IH0 Hall0) as [s0 Hs0];
      try (inversion IHt as [|? ? IH1 _]; subst;
           inversion Hallt as [|? ? Hall1 _]; subst;
           destruct (IH1 Hall1) as [s1 Hs1]);
      simpl; rewrite ?Hs0, ?Hs1;
      try (destruct (child_prec _ a0)); eauto.
  - intros _. eexists; reflexivity.
Qed.

(** C6: rendering an [Operation] whose argument count differs from its
    kind's [argcount()] panics; every expression built solely through the
    public builders has exactly [argcount()] children at every node, so
    it renders without reaching that panic. *)
Theorem render_arity_panic_unreachable :
  (forall c k args, List.length args <> argcount k ->
                    render (Op c k args) = None) /\
  (forall e, Built e -> arity_ok e /\ render e <> None).
Proof.
  split.
  - intros c k args Hlen. simpl.
    destruct (Nat.eqb_spec (List.length args) (argcount k)); [contradiction|].
    reflexivity.
  - intros e He. pose proof (Built_arity_ok e He) as Hok.
    split; [exact Hok|].
    destruct (arity_ok_render e Hok) as [s Hs]. rewrite Hs. discriminate.
Qed.

Lemma render_arity_panic_unreachable_witness :
  render (Op None Addition [variable "x"]) = None /\
  render (sin (neg ByValue (variable "x"))) <> None.
Proof.
  split.
  - apply (proj1 render_arity_panic_unreachable).
    simpl. discriminate.
  - apply (proj2 render_arity_panic_unreachable).
    apply (B_apply BSin _ (variable "x")); [|apply B_variable].
    apply (B_apply (BNeg ByValue) _ (variable "x")); apply B_variable.
Defined.

Lemma fold_left_write_u64 (h : OpArgument -> Z) (l : list OpArgument)
  (state : list HashWrite) :
  fold_left (fun state e => write_u64 (h e) state) l state =
  (state ++ map (fun e => WriteU64 (h e)) l)%list.
Proof.
  revert state; induction l as [|e l IH]; intros state; simpl.
  - rewrite app_nil_r; reflexivity.
  - rewrite IH. unfold write_u64. rewrite <- app_assoc. reflexivity.
Qed.

(** C3: hashing an operator node writes its opcode, then its argument
    count, then every argument's own (cached) 64-bit hash in order;
    hashing a leaf writes its discriminant code, then the numerator and
    denominator for [Rational], the name's bytes for [Variable], and
    nothing more for [Pi], [E], [I] and [Inf].  An [OpArgument] whose
    cell is empty hashes to the digest of exactly these writes. *)
Theorem hash_write_sequence (finish : list HashWrite -> Z) :
  (forall c k args,
      hash_oparg finish (Op c k args) [] =
      WriteU32 (opcode k) :: WriteU64 (Z.of_nat (List.length args)) ::
      map (fun e => WriteU64 (oparg_hash finish e)) args) /\
  (forall c num den,
      hash_oparg finish (Leaf c (Rational num den)) [] =
      [WriteU32 0; WriteU64 (Z.of_N num); WriteU64 (Z.pos den)]) /\
  (forall c name,
      hash_oparg finish (Leaf c (Variable' name)) [] =
      [WriteU32 5; WriteBytes (list_byte_of_string name)]) /\
  (forall c, hash_oparg finish (Leaf c Pi) [] = [WriteU32 1]) /\
  (forall c, hash_oparg finish (Leaf c E) [] = [WriteU32 2]) /\
  (forall c, hash_oparg finish (Leaf c I) [] = [WriteU32 3]) /\
  (forall c, hash_oparg finish (Leaf c Inf) [] = [WriteU32 4]) /\
  (forall a, hash_cell a = None ->
             oparg_hash finish a = finish (hash_oparg finish a [])).
Proof.
  repeat split; intros; try reflexivity.
  - simpl. unfold Operation_hash. rewrite fold_left_write_u64. reflexivity.
  - rewrite oparg_hash_unfold, H. reflexivity.
Qed.

Lemma hash_write_sequence_witness :
  hash_cell (variable "x") = None /\
  oparg_hash (fun w => Z.of_nat (List.length w)) (variable "x") =
  (fun w => Z.of_nat (List.length w))
    (hash_oparg (fun w => Z.of_nat (List.length w)) (variable "x") []).
Proof.
  split; [reflexivity|].
  apply (proj2 (proj2 (proj2 (proj2 (proj2 (proj2 (proj2
           (hash_write_sequence (fun w => Z.of_nat (List.length w)))))))))).
  reflexivity.
Defined.

Section HashingClaims.
Variable finish : list HashWrite -> Z.

Lemma cache_ok_Op (c : option Z) (k : OperationKind) (args : list OpArgument) :
  cache_ok finish (Op c k args) <->
  (forall h, c = Some h -> h = finish (Operation_hash finish k args [])) /\
  Forall (cache_ok finish) args.
Proof.
  simpl. split; intros [Hc Hall]; split; try exact Hc; clear Hc.
  - induction args as [|a args IH]; constructor; destruct Hall; auto.
  - induction args as [|a args IH]; [exact Logic.I|].
    inversion Hall; subst; split; [assumption | apply IH; assumption].
Qed.

(** With consistent cells, the hash is that of the bare shape. *)
Lemma cache_ok_hash_erase (a : OpArgument) :
  cache_ok finish a -> oparg_hash finish a = oparg_hash finish (erase a).
Proof.
  induction a as [c k args IH | c v] using OpArgument_ind'.
  - intros Hok. apply cache_ok_Op in Hok as [Hc Hall].
    rewrite oparg_hash_unfold. simpl erase.
    rewrite oparg_hash_unfold. simpl hash_cell. simpl hash_oparg.
    assert (Hargs : Operation_hash finish k args [] =
                    Operation_hash finish k (map erase args) []).
    { unfold Operation_hash. rewrite length_map, !fold_left_write_u64.
      f_equal. rewrite map_map. apply map_ext_in. intros e He.
      rewrite Forall_forall in IH, Hall. rewrite (IH e He (Hall e He)).
      reflexivity. }
    destruct c as [h|]; simpl.
    + rewrite <- Hargs. apply Hc. reflexivity.
    + rewrite Hargs. reflexivity.
  - simpl. intros Hc. destruct c as [h|]; simpl; [apply Hc|]; reflexivity.
Qed.

Lemma cache_ok_construct_oparg (a : OpArgument) :
  cache_ok finish a -> cache_ok finish (construct_oparg a).
Proof.
  destruct a as [c k args | c v]; simpl.
  - intros [_ Hall]. split; [discriminate|exact Hall].
  - intros _ h Hh; discriminate Hh.
Qed.

Lemma cache_ok_pass (p : Passing) (a : OpArgument) :
  cache_ok finish a -> cache_ok finish (pass p a).
Proof. destruct p; simpl; auto using cache_ok_construct_oparg. Qed.

Lemma fill_hash_same (a : OpArgument) :
  oparg_hash finish (fill_hash finish a) = oparg_hash finish a.
Proof. destruct a as [[h|] k args | [h|] v]; reflexivity. Qed.

Lemma cache_ok_fill_hash (a : OpArgument) :
  cache_ok finish a -> cache_ok finish (fill_hash finish a).
Proof.
  induction a as [c k args IH | c v] using OpArgument_ind'.
  - intros Hok. destruct c as [h|]; [exact Hok|].
    apply cache_ok_Op in Hok as [_ Hall].
    apply cache_ok_Op. split.
    + intros h Hh. injection Hh as <-.
      change (oparg_hash finish (Op None k args))
        with (finish (Operation_hash finish k args [])).
      unfold Operation_hash. rewrite length_map, !fold_left_write_u64, map_map.
      do 2 f_equal. apply map_ext. intros e.
      exact (f_equal WriteU64 (eq_sym (fill_hash_same e))).
    + apply Forall_map. rewrite Forall_forall in IH, Hall |- *.
      intros e He. apply IH; auto.
  - intros Hok. destruct c as [h|]; [exact Hok|].
    simpl. intros h' Hh'. injection Hh' as <-. reflexivity.
Qed.
End HashingClaims.

Lemma Reachable_cache_ok (finish : list HashWrite -> Z) (a : OpArgument) :
  Reachable finish a -> cache_ok finish a.
Proof.
  induction 1 as [name|v|b x y Hx IHx Hy IHy|x Hx IHx].
  - simpl. intros h Hh; discriminate Hh.
  - simpl. intros h Hh; discriminate Hh.
  - destruct b; simpl; split; try (intros h Hh; discriminate Hh);
      repeat split; auto using cache_ok_pass, cache_ok_construct_oparg.
  - apply cache_ok_fill_hash; exact IHx.
Qed.

(** C4: two expressions reached independently through the builders (by
    value or by reference, hashed or not) that have the same shape and
    the same leaf values have the same [hash()] and compare equal; in
    particular a hashed [x + y] built from owned operands equals a fresh
    [&x + &y]. *)
Theorem hash_eq_same_shape (finish : list HashWrite -> Z) :
  (forall a b, Reachable finish a -> Reachable finish b ->
               erase a = erase b ->
               oparg_hash finish a = oparg_hash finish b /\
               oparg_eq finish a b = true) /\
  oparg_eq finish
    (fill_hash finish (add ByValue ByValue (variable "x") (variable "y")))
    (add ByRef ByRef (variable "x") (variable "y")) = true.
Proof.
  assert (Hgen : forall a b, Reachable finish a -> Reachable finish b ->
                 erase a = erase b ->
                 oparg_hash finish a = oparg_hash finish b /\
                 oparg_eq finish a b = true).
  { intros a b Ha Hb Hab.
    assert (Hh : oparg_hash finish a = oparg_hash finish b).
    { rewrite (cache_ok_hash_erase finish a (Reachable_cache_ok finish a Ha)),
              (cache_ok_hash_erase finish b (Reachable_cache_ok finish b Hb)), Hab.
      reflexivity. }
    split; [exact Hh|]. unfold oparg_eq. rewrite Hh. apply Z.eqb_refl. }
  split; [exact Hgen|].
  apply Hgen; [apply R_hashed| |reflexivity];
    apply (R_apply finish (BAdd _ _)); apply R_variable.
Qed.

Lemma hash_eq_same_shape_witness :
  oparg_hash (fun w => Z.of_nat (List.length w))
    (sub ByValue ByRef (variable "x") (from_value Pi)) =
  oparg_hash (fun w => Z.of_nat (List.length w))
    (fill_hash (fun w => Z.of_nat (List.length w))
       (sub ByRef ByValue (variable "x") (from_value Pi))).
Proof.
  apply (proj1 (hash_eq_same_shape (fun w => Z.of_nat (List.length w)))).
  - apply (R_apply _ (BSub ByValue ByRef)); [apply R_variable|apply R_value].
  - apply R_hashed.
    apply (R_apply _ (BSub ByRef ByValue)); [apply R_variable|apply R_value].
  - reflexivity.
Defined.

Lemma Value_eqb_spec (v w : Value) : Value_eqb v w = true <-> v = w.
Proof.
  unfold Value_eqb. destruct (Value_eq_dec v w); split; congruence.
Qed.

Lemma set_insert_In (x v : Value) (s : list Value) :
  In v (set_insert Value_eqb x s) <-> In v s \/ v = x.
Proof.
  unfold set_insert. destruct (existsb (Value_eqb x) s) eqn:Hex.
  - apply existsb_exists in Hex as [y [Hy Hxy]].
    apply Value_eqb_spec in Hxy. subst y.
    split; [tauto|]. intros [H|H]; [exact H|subst; exact Hy].
  - simpl. split; intros [H|H]; auto.
Qed.

Lemma set_insert_NoDup (x : Value) (s : list Value) :
  NoDup s -> NoDup (set_insert Value_eqb x s).
Proof.
  intros Hs. unfold set_insert. destruct (existsb (Value_eqb x) s) eqn:Hex.
  - exact Hs.
  - constructor; [|exact Hs]. intros Hin.
    assert (Htrue : existsb (Value_eqb x) s = true).
    { apply existsb_exists. exists x. split; [exact Hin|].
      apply Value_eqb_spec. reflexivity. }
    congruence.
Qed.

Lemma leaf_of_Op (v : Value) (c : option Z) (k : OperationKind)
  (args : list OpArgument) :
  leaf_of v (Op c k args) <-> exists a, In a args /\ leaf_of v a.
Proof.
  split.
  - intros H. inversion H; subst. eauto.
  - intros [a [Ha Hv]]. econstructor; eauto.
Qed.

(** [fill_variables] adds exactly the leaf values of the expression to
    the set it is given and keeps it duplicate-free. *)
Lemma fill_variables_spec (a : OpArgument) :
  forall vars,
    (forall v, In v (fill_variables a vars) <-> In v vars \/ leaf_of v a) /\
    (NoDup vars -> NoDup (fill_variables a vars)).
Proof.
  induction a as [c k args IH | c x] using OpArgument_ind'; intros vars.
  - simpl. revert vars.
    induction args as [|a args IHargs]; intros vars; simpl.
    + split; [|tauto]. intros v. rewrite leaf_of_Op.
      split; [tauto|]. intros [H|[a [[] _]]]. exact H.
    + inversion IH as [|? ? IHa IHt]; subst.
      destruct (IHargs IHt (fill_variables a vars)) as [Hin Hnd].
      destruct (IHa vars) as [Hin_a Hnd_a].
      split; [|intros Hvars; apply Hnd, Hnd_a, Hvars].
      intros v. rewrite Hin, Hin_a, !leaf_of_Op. split.
      * intros [[H|H]|[b [Hb Hv]]]; [tauto| |]; right; eauto using in_eq, in_cons.
      * intros [H|[b [[Hb|Hb] Hv]]]; [tauto| subst; tauto |].
        right. eauto.
  - simpl. split; [|apply set_insert_NoDup]. intros v.
    rewrite set_insert_In. split.
    + intros [H|H]; [left; exact H|subst; right; constructor].
    + intros [H|H]; [left; exact H|inversion H; subst; right; reflexivity].
Qed.

(** C8: [e.variables()] holds exactly the leaf values referenced anywhere
    in [e], each once; [variable("x").cos().variables()] is [{x}]. *)
Theorem variables_exact (e : OpArgument) :
  ((forall v, In v (variables e) <-> leaf_of v e) /\ NoDup (variables e)) /\
  variables (cos (variable "x")) = [Variable' "x"].
Proof.
  split; [|reflexivity].
  destruct (fill_variables_spec e []) as [Hin Hnd]. split.
  - intros v. unfold variables. rewrite Hin. simpl. tauto.
  - apply Hnd. constructor.
Qed.

Lemma variables_exact_witness :
  In Pi (variables (add ByValue ByValue (variable "x") (from_value Pi))) /\
  NoDup (variables (add ByValue ByValue (variable "x") (variable "x"))).
Proof.
  split.
  - apply (proj1 (proj1 (variables_exact _)) Pi).
    econstructor; [simpl; right; left; reflexivity|constructor].
  - apply (proj2 (proj1 (variables_exact _))).
Defined.

(** C10: [variables()] also collects leaves that are not variables: a
    constant ([Pi], [E], [I], [Inf] or a [Rational]) occurring in [e] is
    in [e.variables()]; [(x + Pi).variables()] holds both [x] and [Pi]. *)
Theorem variables_include_constants (e : OpArgument) (v : Value) :
  (is_variable v = false -> leaf_of v e -> In v (variables e)) /\
  variables (add ByValue ByValue (variable "x") (from_value Pi))
    = [Pi; Variable' "x"].
Proof.
  split; [|reflexivity].
  intros _ Hv. apply (proj1 (fill_variables_spec e [])). right. exact Hv.
Qed.

Lemma variables_include_constants_witness :
  In (Rational 1 2) (variables (mul ByRef ByValue (variable "y")
                                    (from_value (Rational 1 2)))).
Proof.
  apply (proj1 (variables_include_constants _ _)); [reflexivity|].
  econstructor; [simpl; right; left; reflexivity|constructor].
Defined.

(** C9: the graph built from [e] has [e] as its backing graph and exactly
    one equivalence class, whose set holds exactly [e]. *)
Theorem equivalence_graph_singleton (finish : list HashWrite -> Z)
  (e : OpArgument) :
  backing_graph (EquivalenceGraph_from finish e) = e /\
  exists cls, eclasses (EquivalenceGraph_from finish e) = [cls] /\
              graphset cls = [e].
Proof.
  split; [reflexivity|]. eexists. split; reflexivity.
Qed.

(* ================================================================== *)
(** * Further properties of the code *)

(** Every kind is exactly one of: prefix ([Negation], one argument),
    infix (two arguments) or a function call (one argument); so the
    renderer's [assert_eq!(self.op.argcount(), 2)] for infix operators
    never fails. *)
Theorem kind_shape_argcount (k : OperationKind) :
  argcount k = (if is_infix k then 2 else 1) /\
  (is_prefix k = true -> is_infix k = false /\ k = Negation).
Proof. destruct k; split; try reflexivity; intros H; try discriminate H; auto. Qed.

Lemma kind_shape_argcount_witness :
  is_prefix Negation = true /\ is_infix Negation = false /\ Negation = Negation.
Proof. split; [reflexivity|]. apply (proj2 (kind_shape_argcount Negation)). reflexivity. Defined.

(** [associativity()] is [Neither] exactly for the non-infix kinds, and
    [Pow] is the only right-associative kind. *)
Theorem associativity_classes (k : OperationKind) :
  (associativity k = Neither <-> is_infix k = false) /\
  (associativity k = Right <-> k = Pow).
Proof. destruct k; simpl; split; split; intros H; try discriminate H; auto. Qed.

Lemma associativity_classes_witness :
  associativity Sin = Neither /\ associativity Pow = Right.
Proof.
  split.
  - apply (proj1 (associativity_classes Sin)). reflexivity.
  - apply (proj2 (associativity_classes Pow)). reflexivity.
Defined.



Section EvalFnProperties.
Context {f64 : Type}.
Context (fadd fsub fmul fdiv powf : f64 -> f64 -> f64).
Context (fneg fexp fsin fcos ftan fln : f64 -> f64).

Let eval_fn' := eval_fn f64 fadd fsub fmul fdiv powf fneg fexp fsin fcos ftan fln.

(** Without [eval]'s assertion, [eval_fn] panics exactly on slices shorter
    than [argcount()], and ignores any elements past the ones it needs. *)
Theorem eval_fn_bounds (k : OperationKind) (a extra : list f64) :
  (eval_fn' k a = None <-> List.length a < argcount k) /\
  (List.length a = argcount k -> eval_fn' k ((a ++ extra)%list) = eval_fn' k a).
Proof.
  unfold eval_fn'. split.
  - destruct k, a as [|x [|y a]]; simpl; split; intros H;
      try discriminate H; try reflexivity; lia.
  - intros H. destruct k, a as [|x [|y a]]; simpl in H; try discriminate H;
      try (injection H as H; discriminate H); reflexivity.
Qed.
End EvalFnProperties.

Lemma eval_fn_bounds_witness :
  eval_fn Z Z.add Z.sub Z.mul Z.div Z.pow Z.opp id id id id id
    Subtraction ([5; 3] ++ [7])%list%Z = Some 2%Z.
Proof.
  rewrite (proj2 (eval_fn_bounds Z.add Z.sub Z.mul Z.div Z.pow
                    Z.opp id id id id id Subtraction [5; 3]%Z [7]%Z)).
  - reflexivity.
  - reflexivity.
Defined.

Lemma string_app_empty (s : string) : s ++ "" = s.
Proof. induction s as [|ch s IH]; simpl; [reflexivity|rewrite IH; reflexivity]. Qed.

(** A negation prints ["-"] and its operand, bare when the operand is a
    leaf and always in parentheses when it is an operator (every kind is
    of equal or lower precedence than [Negation]). *)
Theorem render_negation (c : option Z) (a : OpArgument) :
  render (Op c Negation [a]) =
  match render a with
  | None => None
  | Some s =>
      Some ("-" ++ match a with
                   | Leaf _ _ => s
                   | Op _ _ _ => paren s
                   end)
  end.
Proof.
  change (render (Op c Negation [a])) with
    (match render a with
     | None => None
     | Some s0 =>
         match child_prec Negation a with
         | Lt | Eq => Some (show_kind Negation ++ paren s0)
         | Gt => Some (show_kind Negation ++ s0)
         end
     end).
  destruct (render a) as [s|]; [|reflexivity].
  destruct a as [c' k' args'|c' v]; [destruct k'|]; reflexivity.
Qed.

(** [exp], [sin], [cos], [tan] and [ln] print as a function call: the
    kind's name and the operand in parentheses, whatever the operand. *)
Theorem render_function_call (c : option Z) (k : OperationKind)
  (a : OpArgument) :
  is_infix k = false -> is_prefix k = false ->
  render (Op c k [a]) = option_map (fun s => show_kind k ++ paren s) (render a).
Proof.
  intros Hinf Hpre.
  destruct k; try discriminate Hinf; try discriminate Hpre; simpl;
    destruct (render a) as [s|]; try reflexivity;
    simpl; rewrite !string_app_empty; reflexivity.
Qed.

Lemma render_function_call_witness :
  render (Op None Ln [neg ByValue (variable "x")]) = Some "ln(-x)".
Proof.
  rewrite (render_function_call None Ln _ eq_refl eq_refl). reflexivity.
Defined.

Lemma child_prec_erase (k : OperationKind) (a : OpArgument) :
  child_prec k (erase a) = child_prec k a.
Proof. destruct a; reflexivity. Qed.

Lemma fill_variables_erase (a : OpArgument) :
  forall vars, fill_variables (erase a) vars = fill_variables a vars.
Proof.
  induction a as [c k args IH | c v] using OpArgument_ind'; intros vars;
    [|reflexivity].
  simpl. revert vars.
  induction args as [|a args IHargs]; intros vars; [reflexivity|].
  inversion IH as [|? ? IHa IHt]; subst. simpl.
  rewrite IHa. apply IHargs. exact IHt.
Qed.

(** Rendering and [variables()] read only the shape and the leaf values
    of an expression: they do not depend on the hash cells, so filling
    them (by [hash()]) or resetting them (by [construct_oparg]) changes
    neither. *)
Theorem render_variables_ignore_cells (a : OpArgument) :
  render (erase a) = render a /\ variables (erase a) = variables a.
Proof.
  split; [|apply fill_variables_erase].
  induction a as [c k args IH | c v] using OpArgument_ind'; [|reflexivity].
  simpl erase.
  destruct k, args as [|a0 [|a1 [|a2 rest]]]; simpl; try reflexivity;
    inversion IH as [|? ? IH0 IHt]; subst;
    try (inversion IHt as [|? ? IH1 _]; subst);
    rewrite ?child_prec_erase, ?IH0, ?IH1; reflexivity.
Qed.

Lemma erase_construct_oparg (a : OpArgument) : erase (construct_oparg a) = erase a.
Proof. destruct a; reflexivity. Qed.

(** Passing an operand by reference ([construct_oparg]: a fresh, empty
    hash cell sharing the same [Arc]) keeps its shape, and, when its cells
    are consistent, its [hash()]; so by-value and by-reference builders
    give equal operands. *)
Theorem pass_keeps_shape_and_hash (finish : list HashWrite -> Z)
  (p : Passing) (a : OpArgument) :
  erase (pass p a) = erase a /\
  (cache_ok finish a -> oparg_hash finish (pass p a) = oparg_hash finish a).
Proof.
  destruct p; simpl; [split; reflexivity|].
  split; [apply erase_construct_oparg|].
  intros Hok.
  rewrite (cache_ok_hash_erase finish _ (cache_ok_construct_oparg finish a Hok)),
          erase_construct_oparg, <- (cache_ok_hash_erase finish a Hok).
  reflexivity.
Qed.

Lemma pass_keeps_shape_and_hash_witness :
  oparg_hash (fun w => Z.of_nat (List.length w))
    (pass ByRef (fill_hash (fun w => Z.of_nat (List.length w))
                   (cos (variable "x")))) =
  oparg_hash (fun w => Z.of_nat (List.length w))
    (fill_hash (fun w => Z.of_nat (List.length w)) (cos (variable "x"))).
Proof.
  apply (proj2 (pass_keeps_shape_and_hash _ ByRef _)).
  apply cache_ok_fill_hash. simpl. split; [discriminate|].
  split; [discriminate|exact Logic.I].
Defined.







Lemma opcode_inj (k k' : OperationKind) : opcode k = opcode k' -> k = k'.
Proof. destruct k, k'; intros H; try discriminate H; reflexivity. Qed.

Lemma map_write_u64_inj (h : OpArgument -> Z) (l l' : list OpArgument) :
  map (fun e => WriteU64 (h e)) l = map (fun e => WriteU64 (h e)) l' ->
  map h l = map h l'.
Proof.
  revert l'; induction l as [|x l IH]; intros [|x' l'] H; try discriminate H;
    [reflexivity|].
  simpl in H. injection H as Hx Hl. simpl. rewrite Hx, (IH l' Hl). reflexivity.
Qed.

(** The writes made to a fresh hasher determine the node up to its
    arguments' hashes: equal write sequences come from two leaves with
    the same value, or from two operations of the same kind whose
    arguments have the same hashes in the same order.  Distinct leaf
    values (for instance [Rational(1, 2)] and [Rational(2, 4)]) never
    write the same sequence. *)
Theorem hash_writes_determine_node (finish : list HashWrite -> Z)
  (a b : OpArgument) :
  hash_oparg finish a [] = hash_oparg finish b [] ->
  (exists c c' v, a = Leaf c v /\ b = Leaf c' v) \/
  (exists c c' k args args', a = Op c k args /\ b = Op c' k args' /\
     map (oparg_hash finish) args = map (oparg_hash finish) args').
Proof.
  pose proof (proj1 (hash_write_sequence finish)) as Hop.
  destruct a as [c k args | c v], b as [c' k' args' | c' v']; intros H.
  - right. rewrite !Hop in H. injection H as Hk _ Hargs.
    apply opcode_inj in Hk. subst k'.
    exists c, c', k, args, args'. split; [reflexivity|]. split; [reflexivity|].
    exact (map_write_u64_inj _ _ _ Hargs).
  - exfalso. rewrite Hop in H.
    destruct v'; simpl in H; try discriminate H;
      injection H as Hk; destruct k; discriminate Hk.
  - exfalso. rewrite Hop in H.
    destruct v; simpl in H; try discriminate H;
      injection H as Hk; destruct k'; discriminate Hk.
  - left. exists c, c', v. split; [reflexivity|]. f_equal.
    destruct v, v'; simpl in H; try discriminate H; try reflexivity.
    + injection H as Hn Hd. apply N2Z.inj in Hn. subst. reflexivity.
    + injection H as H.
      rewrite <- (string_of_list_byte_of_string name),
              <- (string_of_list_byte_of_string name0), H.
      reflexivity.
Qed.

Lemma hash_writes_determine_node_witness :
  hash_oparg (fun w => Z.of_nat (List.length w)) (variable "x") [] <>
  hash_oparg (fun w => Z.of_nat (List.length w)) (from_value (Variable' "y")) [].
Proof.
  intros H.
  destruct (hash_writes_determine_node _ _ _ H)
    as [[c [c' [v [Ha Hb]]]]|[c [c' [k [args [args' [Ha _]]]]]]];
    [injection Ha as _ <-; discriminate Hb | discriminate Ha].
Defined.

Lemma variables_In (e : OpArgument) (v : Value) :
  In v (variables e) <-> leaf_of v e.
Proof.
  unfold variables. rewrite (proj1 (fill_variables_spec e [])). simpl. tauto.
Qed.

Lemma leaf_of_pass (p : Passing) (v : Value) (a : OpArgument) :
  leaf_of v (pass p a) <-> leaf_of v a.
Proof.
  destruct p; [reflexivity|]. destruct a as [c k args|c w]; simpl.
  - rewrite !leaf_of_Op. reflexivity.
  - split; intros H; inversion H; subst; constructor.
Qed.

Lemma apply_builder_shape (b : Builder) (x y : OpArgument) :
  exists k pq, apply_builder b x y =
    Op None k (if builder_is_binary b
               then [pass (fst pq) x; pass (snd pq) y]
               else [pass (fst pq) x]).
Proof.
  destruct b as [p q|p q|p q|p q|p| | | | |];
    [exists Addition, (p, q) | exists Subtraction, (p, q)
    | exists Multiplication, (p, q) | exists Division, (p, q)
    | exists Negation, (p, ByValue) | exists Pow, (ByRef, ByRef)
    | exists Ln, (ByRef, ByRef) | exists Exp, (ByRef, ByRef)
    | exists Sin, (ByRef, ByRef) | exists Cos, (ByRef, ByRef)];
    reflexivity.
Qed.

(** The variables of an expression built by one builder are those of
    its operands: both operands for the binary builders, the first for
    the unary ones, whether passed by value or by reference. *)
Theorem variables_apply_builder (b : Builder) (x y : OpArgument) (v : Value) :
  In v (variables (apply_builder b x y)) <->
  In v (variables x) \/ (builder_is_binary b = true /\ In v (variables y)).
Proof.
  rewrite !variables_In.
  destruct (apply_builder_shape b x y) as [k [[p q] Hb]].
  rewrite Hb, leaf_of_Op. simpl.
  destruct (builder_is_binary b); split.
  - intros [a [[<-|[<-|[]]] Hv]]; rewrite leaf_of_pass in Hv;
      [left; exact Hv | right; split; [reflexivity|exact Hv]].
  - intros [Hv|[_ Hv]]; [exists (pass p x) | exists (pass q y)];
      (split; [simpl; auto | rewrite leaf_of_pass; exact Hv]).
  - intros [a [[<-|[]] Hv]]. rewrite leaf_of_pass in Hv. left; exact Hv.
  - intros [Hv|[Hf _]]; [|discriminate Hf].
    exists (pass p x). split; [simpl; auto | rewrite leaf_of_pass; exact Hv].
Qed.
